(** * ProjectionSystem: the renderer's projection matrix

    A shallow embedding of [packages/core/src/projection/ProjectionSystem.ts]
    and the properties of its [update] / [calculateProjection] methods.

    JavaScript numbers are kept abstract behind the [Number] interface, so that
    every definition below is written once, following the source, and can be
    run at two instances:
    - [float_Number]: IEEE 754 binary64 (Rocq's primitive floats), which is
      what a JavaScript engine computes, infinities and NaN included;
    - [Qc_Number]: exact rational arithmetic, used for the algebraic
      identities that hold in doubles only up to rounding. *)

From Stdlib Require Import Bool List ZArith QArith Qcanon Ring Lia.
From Stdlib Require Import Floats.
Import ListNotations.

Close Scope Qc_scope.
Close Scope Q_scope.

Set Implicit Arguments.
Set Warnings "-inexact-float".

(** ** JavaScript numbers *)

Class Number (num : Type) : Type := {
  num0 : num;                        (* the literal 0 *)
  num1 : num;                        (* the literal 1 *)
  num2 : num;                        (* the literal 2 *)
  num_add : num -> num -> num;       (* l + r *)
  num_sub : num -> num -> num;       (* l - r *)
  num_mul : num -> num -> num;       (* l * r *)
  num_div : num -> num -> num;       (* l / r *)
  num_neg : num -> num               (* -r *)
}.

Declare Scope js_scope.
Delimit Scope js_scope with js.
Infix "+" := num_add : js_scope.
Infix "-" := num_sub : js_scope.
Infix "*" := num_mul : js_scope.
Infix "/" := num_div : js_scope.
Notation "- r" := (num_neg r) : js_scope.

(** Doubles: the arithmetic the program really runs on. *)
#[export] Instance float_Number : Number float := {
  num0 := 0%float;
  num1 := 1%float;
  num2 := 2%float;
  num_add := PrimFloat.add;
  num_sub := PrimFloat.sub;
  num_mul := PrimFloat.mul;
  num_div := PrimFloat.div;
  num_neg := PrimFloat.opp
}.

(** Exact rationals: the arithmetic the formulas are read in. *)
#[export] Instance Qc_Number : Number Qc := {
  num0 := Q2Qc 0;
  num1 := Q2Qc 1;
  num2 := Q2Qc 2;
  num_add := Qcplus;
  num_sub := Qcminus;
  num_mul := Qcmult;
  num_div := Qcdiv;
  num_neg := Qcopp
}.

(** Exact arithmetic: the ring laws, and division as multiplication by an
    inverse.  Doubles are not an instance (addition is not associative
    there); the rationals are. *)
Class ExactArith (num : Type) {N : Number num} : Prop := {
  exact_ring : ring_theory num0 num1 num_add num_mul num_sub num_neg (@eq num);
  exact_div_mul : forall p q r : num, (p / q * r = (p * r) / q)%js
}.

Arguments ExactArith num {N}.

(** ** Geometry types of [@pixi/math] *)

Module Rectangle.
Record t (num : Type) : Type := mk {
  x : num;
  y : num;
  width : num;
  height : num
}.
End Rectangle.

Module Matrix.
(** The affine map [x' = a*x + c*y + tx], [y' = b*x + d*y + ty]. *)
Record t (num : Type) : Type := mk {
  a : num;
  b : num;
  c : num;
  d : num;
  tx : num;
  ty : num
}.

Section Ops.
Context {num : Type} {N : Number num}.

(** Modelled from the spec: [new Matrix()] of [@pixi/math], which is not
    among the sources; a freshly constructed matrix is the identity, so its
    [b] and [c] are 0. *)
Definition new : t num :=
  {| a := num1; b := num0; c := num0; d := num1; tx := num0; ty := num0 |}.

(** Modelled from the spec: the action of an affine matrix on a point,
    [x' = a*x + c*y + tx; y' = b*x + d*y + ty]. *)
Definition apply (m : t num) (p : num * num) : num * num :=
  let (px, py) := p in
  ((a m * px + c m * py + tx m)%js, (b m * px + d m * py + ty m)%js).

(** Modelled from the spec: [Matrix.append] of [@pixi/math], which is not
    among the sources.  [append this m] is [this] after [this.append(m)]:
    the composition in which [m] is applied after [this]. *)
Definition append (this m : t num) : t num :=
  {| a := (a m * a this + c m * b this)%js;
     b := (b m * a this + d m * b this)%js;
     c := (a m * c this + c m * d this)%js;
     d := (b m * c this + d m * d this)%js;
     tx := (a m * tx this + c m * ty this + tx m)%js;
     ty := (b m * tx this + d m * ty this + ty m)%js |}.
End Ops.
End Matrix.

(** ** The host renderer, as far as [update] touches it *)

(** Handle of a uniform group ([shader.uniforms.globals]). *)
Definition UniformGroup : Type := nat.

Record Shader : Type := {
  uniforms_globals : UniformGroup
}.

(** Host operations that [update] invokes; their bodies belong to the renderer,
    so a call is recorded, in order, rather than interpreted. *)
Inductive HostCall : Type :=
| GlobalUniforms_update                       (* renderer.globalUniforms.update() *)
| Shader_syncUniformGroup (g : UniformGroup). (* renderer.shader.syncUniformGroup(g) *)

(** What [renderer.globalUniforms.uniforms.projectionMatrix] refers to: the
    system's own live [projectionMatrix] object (stored by reference, never
    copied), or some other matrix the host put there. *)
Inductive MatrixRef (num : Type) : Type :=
| ThisProjectionMatrix
| OtherMatrix (m : Matrix.t num).
Arguments ThisProjectionMatrix {num}.

Record Renderer (num : Type) : Type := {
  globalUniforms_projectionMatrix : MatrixRef num;
  shader_shader : option Shader;
  hostCalls : list HostCall     (* oldest first *)
}.

(** ** Component state *)

Record ProjectionSystem (num : Type) : Type := {
  destinationFrame : option (Rectangle.t num);
  sourceFrame : option (Rectangle.t num);
  defaultFrame : option (Rectangle.t num);
  projectionMatrix : Matrix.t num;
  transform : option (Matrix.t num);
  renderer : Renderer num
}.

(** ** Statements of a method body: state passing with exceptions *)

Inductive JsError : Type :=
| TypeError.

(** How running a piece of code on a state ends; the state reached is kept in
    both cases, since assignments made before a [throw] stay. *)
Inductive Completion (S A : Type) : Type :=
| Return (v : A) (s : S)
| Throw (e : JsError) (s : S).
Arguments Return {S A} v s.
Arguments Throw {S A} e s.

Definition Js (S A : Type) : Type := S -> Completion S A.

Definition ret {S A : Type} (v : A) : Js S A := fun s => Return v s.

Definition throw {S A : Type} (e : JsError) : Js S A := fun s => Throw e s.

Definition bind {S A B : Type} (m : Js S A) (k : A -> Js S B) : Js S B :=
  fun s => match m s with
           | Return v s' => k v s'
           | Throw e s' => Throw e s'
           end.

Definition get {S : Type} : Js S S := fun s => Return s s.

Definition modify {S : Type} (f : S -> S) : Js S unit := fun s => Return tt (f s).

Notation "v <- m ;; k" := (bind m (fun v => k))
  (at level 61, m at next level, right associativity).
Notation "m ;; k" := (bind m (fun _ => k))
  (at level 61, right associativity).

(** The state a completion ends in. *)
Definition state_of {S A : Type} (r : Completion S A) : S :=
  match r with
  | Return _ s => s
  | Throw _ s => s
  end.

(** [true] when the code ran to its end. *)
Definition returned {S A : Type} (r : Completion S A) : bool :=
  match r with
  | Return _ _ => true
  | Throw _ _ => false
  end.

(** JavaScript's [l || r] on object references: an object is truthy, [null]
    and [undefined] are not. *)
Definition or_else {A : Type} (l r : option A) : option A :=
  match l with
  | Some _ => l
  | None => r
  end.
Infix "|||" := or_else (at level 50, left associativity).

(** ** The program *)

Section Program.
Context {num : Type} {N : Number num}.

Local Abbreviation System := (ProjectionSystem num).
Local Abbreviation Rect := (Rectangle.t num).
Local Abbreviation Mat := (Matrix.t num).

(** *** Field assignments *)

Definition set_destinationFrame (v : option Rect) (this : System) : System :=
  {| destinationFrame := v;
     sourceFrame := sourceFrame this;
     defaultFrame := defaultFrame this;
     projectionMatrix := projectionMatrix this;
     transform := transform this;
     renderer := renderer this |}.

Definition set_sourceFrame (v : option Rect) (this : System) : System :=
  {| destinationFrame := destinationFrame this;
     sourceFrame := v;
     defaultFrame := defaultFrame this;
     projectionMatrix := projectionMatrix this;
     transform := transform this;
     renderer := renderer this |}.

Definition set_defaultFrame (v : option Rect) (this : System) : System :=
  {| destinationFrame := destinationFrame this;
     sourceFrame := sourceFrame this;
     defaultFrame := v;
     projectionMatrix := projectionMatrix this;
     transform := transform this;
     renderer := renderer this |}.

Definition set_projectionMatrix (v : Mat) (this : System) : System :=
  {| destinationFrame := destinationFrame this;
     sourceFrame := sourceFrame this;
     defaultFrame := defaultFrame this;
     projectionMatrix := v;
     transform := transform this;
     renderer := renderer this |}.

Definition set_transform (v : option Mat) (this : System) : System :=
  {| destinationFrame := destinationFrame this;
     sourceFrame := sourceFrame this;
     defaultFrame := defaultFrame this;
     projectionMatrix := projectionMatrix this;
     transform := v;
     renderer := renderer this |}.

Definition set_renderer (v : Renderer num) (this : System) : System :=
  {| destinationFrame := destinationFrame this;
     sourceFrame := sourceFrame this;
     defaultFrame := defaultFrame this;
     projectionMatrix := projectionMatrix this;
     transform := transform this;
     renderer := v |}.

(** [pm.a = v], [pm.d = v], [pm.tx = v], [pm.ty = v].  There is no
    assignment to [pm.b] or [pm.c] anywhere in the source. *)
Definition set_a (v : num) (pm : Mat) : Mat :=
  {| Matrix.a := v; Matrix.b := Matrix.b pm; Matrix.c := Matrix.c pm;
     Matrix.d := Matrix.d pm; Matrix.tx := Matrix.tx pm; Matrix.ty := Matrix.ty pm |}.

Definition set_d (v : num) (pm : Mat) : Mat :=
  {| Matrix.a := Matrix.a pm; Matrix.b := Matrix.b pm; Matrix.c := Matrix.c pm;
     Matrix.d := v; Matrix.tx := Matrix.tx pm; Matrix.ty := Matrix.ty pm |}.

Definition set_tx (v : num) (pm : Mat) : Mat :=
  {| Matrix.a := Matrix.a pm; Matrix.b := Matrix.b pm; Matrix.c := Matrix.c pm;
     Matrix.d := Matrix.d pm; Matrix.tx := v; Matrix.ty := Matrix.ty pm |}.

Definition set_ty (v : num) (pm : Mat) : Mat :=
  {| Matrix.a := Matrix.a pm; Matrix.b := Matrix.b pm; Matrix.c := Matrix.c pm;
     Matrix.d := Matrix.d pm; Matrix.tx := Matrix.tx pm; Matrix.ty := v |}.

(** An assignment to a field of the live [this.projectionMatrix] object. *)
Definition assign_pm (f : Mat -> Mat) : Js System unit :=
  modify (fun this => set_projectionMatrix (f (projectionMatrix this)) this).

(** *** The renderer's side *)

(** [renderer.globalUniforms.uniforms.projectionMatrix = ref] *)
Definition store_uniform (ref : MatrixRef num) (r : Renderer num) : Renderer num :=
  {| globalUniforms_projectionMatrix := ref;
     shader_shader := shader_shader r;
     hostCalls := hostCalls r |}.

(** A call of a host operation. *)
Definition record_call (c : HostCall) (r : Renderer num) : Renderer num :=
  {| globalUniforms_projectionMatrix := globalUniforms_projectionMatrix r;
     shader_shader := shader_shader r;
     hostCalls := hostCalls r ++ [c] |}.

Definition on_renderer (f : Renderer num -> Renderer num) : Js System unit :=
  modify (fun this => set_renderer (f (renderer this)) this).

(** The matrix a shader reads under the key [projectionMatrix] of the global
    uniforms: the reference is followed into the current state. *)
Definition uniform_value (this : System) : Mat :=
  match globalUniforms_projectionMatrix (renderer this) with
  | ThisProjectionMatrix => projectionMatrix this
  | OtherMatrix m => m
  end.

(** *** The class *)

(** [constructor(renderer)] *)
Definition constructor (r : Renderer num) : System :=
  {| destinationFrame := None;
     sourceFrame := None;
     defaultFrame := None;
     projectionMatrix := Matrix.new;
     transform := None;
     renderer := r |}.

(** Reading a property through a reference: a [TypeError] on [null]. *)
Definition deref {A : Type} (o : option A) : Js System A :=
  match o with
  | Some v => ret v
  | None => throw TypeError
  end.

(** [calculateProjection(_destinationFrame, sourceFrame, _resolution, root)] *)
Definition calculateProjection (_destinationFrame sourceFrame : option Rect)
    (_resolution : num) (root : bool) : Js System unit :=
  let sign := if negb root then num1 else (- num1)%js in
  sf <- deref sourceFrame ;;
  assign_pm (set_a (num1 / Rectangle.width sf * num2)%js) ;;
  assign_pm (set_d (sign * (num1 / Rectangle.height sf * num2))%js) ;;
  assign_pm (fun pm => set_tx (- num1 - Rectangle.x sf * Matrix.a pm)%js pm) ;;
  assign_pm (fun pm => set_ty (- sign - Rectangle.y sf * Matrix.d pm)%js pm).

(** [update(destinationFrame, sourceFrame, resolution, root)]; the two frame
    arguments carry a prime to keep them apart from the fields. *)
Definition update (destinationFrame' sourceFrame' : option Rect)
    (resolution : num) (root : bool) : Js System unit :=
  modify (fun this =>
    set_destinationFrame
      (destinationFrame' ||| destinationFrame this ||| defaultFrame this) this) ;;
  modify (fun this =>
    set_sourceFrame (sourceFrame' ||| sourceFrame this ||| destinationFrame') this) ;;
  this <- get ;;
  calculateProjection (destinationFrame this) (sourceFrame this) resolution root ;;
  this <- get ;;
  match transform this with
  | Some t => assign_pm (fun pm => Matrix.append pm t)
  | None => ret tt
  end ;;
  on_renderer (store_uniform ThisProjectionMatrix) ;;
  on_renderer (record_call GlobalUniforms_update) ;;
  this <- get ;;
  match shader_shader (renderer this) with
  | Some sh => on_renderer (record_call (Shader_syncUniformGroup (uniforms_globals sh)))
  | None => ret tt
  end.

(** [setTransform(_matrix)]: the body is empty. *)
Definition setTransform (_matrix : Mat) : Js System unit := ret tt.

End Program.

(** ** The steps of [update], one by one *)

Section Steps.
Context {num : Type} {N : Number num}.

Local Abbreviation System := (ProjectionSystem num).
Local Abbreviation Rect := (Rectangle.t num).
Local Abbreviation Mat := (Matrix.t num).

(** The frames line 77 and line 78 of [update] store. *)
Definition resolved_destination (destinationFrame' : option Rect) (this : System)
    : option Rect :=
  destinationFrame' ||| destinationFrame this ||| defaultFrame this.

Definition resolved_source (destinationFrame' sourceFrame' : option Rect)
    (this : System) : option Rect :=
  sourceFrame' ||| sourceFrame this ||| destinationFrame'.

(** The matrix [calculateProjection] leaves in place of [pm]. *)
Definition projected (sf : Rect) (root : bool) (pm : Mat) : Mat :=
  projectionMatrix
    (state_of (calculateProjection None (Some sf) num0 root
                 (set_projectionMatrix pm (constructor
                    {| globalUniforms_projectionMatrix := ThisProjectionMatrix;
                       shader_shader := None;
                       hostCalls := [] |})))).

(** The composition step of [update], lines 83 to 86. *)
Definition composed (t : option Mat) (pm : Mat) : Mat :=
  match t with
  | Some m => Matrix.append pm m
  | None => pm
  end.

(** The propagation step of [update], lines 88 to 98. *)
Definition propagated (r : Renderer num) : Renderer num :=
  let r' := record_call GlobalUniforms_update (store_uniform ThisProjectionMatrix r) in
  match shader_shader r with
  | Some sh => record_call (Shader_syncUniformGroup (uniforms_globals sh)) r'
  | None => r'
  end.

End Steps.

Arguments projected {num N} sf root pm : simpl never.

(** The arguments of one call of [update]. *)
Record UpdateCall (num : Type) : Type := {
  call_destinationFrame : option (Rectangle.t num);
  call_sourceFrame : option (Rectangle.t num);
  call_resolution : num;
  call_root : bool
}.

(** A run of [update] calls, one after the other. *)
Fixpoint updates {num : Type} {N : Number num} (calls : list (UpdateCall num))
    (this : ProjectionSystem num) : ProjectionSystem num :=
  match calls with
  | [] => this
  | call :: rest =>
      updates rest
        (state_of (update (call_destinationFrame call) (call_sourceFrame call)
                     (call_resolution call) (call_root call) this))
  end.

(** ** Concrete inputs, in doubles *)

Module Sample.
(** The frame [{x:0, y:0, width:800, height:600}]. *)
Definition frame : Rectangle.t float :=
  Rectangle.mk 0%float 0%float 800%float 600%float.

(** The frame [{x:100, y:50, width:800, height:600}]. *)
Definition offset_frame : Rectangle.t float :=
  Rectangle.mk 100%float 50%float 800%float 600%float.

(** A quarter turn: a transform whose [b] and [c] are not 0. *)
Definition quarter_turn : Matrix.t float :=
  Matrix.mk 0%float 1%float (-1)%float 0%float 0%float 0%float.

(** A renderer with no shader bound and nothing called yet. *)
Definition host : Renderer float :=
  {| globalUniforms_projectionMatrix := OtherMatrix Matrix.new;
     shader_shader := None;
     hostCalls := [] |}.

(** The same renderer with a shader bound, whose globals group is 7. *)
Definition host_with_shader : Renderer float :=
  {| globalUniforms_projectionMatrix := OtherMatrix Matrix.new;
     shader_shader := Some {| uniforms_globals := 7 |};
     hostCalls := [] |}.

(** A system just constructed. *)
Definition fresh : ProjectionSystem float := constructor host.

(** A system just constructed, with the quarter turn as its [transform]. *)
Definition turned : ProjectionSystem float :=
  set_transform (Some quarter_turn) (constructor host).
End Sample.

(** ** The derivation as the spec writes it *)


(** ** Exact arithmetic with division *)

(** On top of [ExactArith]: 2 is 1 + 1, and a divisor that is not 0 cancels. *)
Class ExactField (num : Type) {N : Number num} : Prop := {
  exact_arith : ExactArith num;
  exact_two : num2 = (num1 + num1)%js;
  exact_div_cancel : forall p q : num, q <> num0 -> ((p * q) / q = p)%js
}.

Arguments ExactField num {N}.

(** What one [update] that gets to its end adds to the record of host calls
    of a renderer [r]. *)
Definition calls_of_update {num : Type} (r : Renderer num) : list HostCall :=
  GlobalUniforms_update
  :: match shader_shader r with
     | Some sh => [Shader_syncUniformGroup (uniforms_globals sh)]
     | None => []
     end.

(** A matrix with no rotation or shear part. *)
Definition axis_aligned {num : Type} {N : Number num} (m : Matrix.t num) : Prop :=
  Matrix.b m = num0 /\ Matrix.c m = num0.

(** * Properties *)

(** The rationals are an exact arithmetic. *)
#[export] Instance Qc_ExactArith : ExactArith Qc.
Proof.
  split.
  - exact Qcrt.
  - intros p q r. cbn. unfold Qcdiv. ring.
Qed.

(** Two doubles that compare different are different. *)
Lemma float_neq (u v : float) : PrimFloat.eqb u v = false -> PrimFloat.eqb v v = true -> u <> v.
Proof. intros Huv Hvv E. rewrite E, Hvv in Huv. discriminate. Qed.

(** ** Closed forms of the two methods *)

Section ClosedForms.
Context {num : Type} {N : Number num}.

Local Abbreviation System := (ProjectionSystem num).
Local Abbreviation Rect := (Rectangle.t num).
Local Abbreviation Mat := (Matrix.t num).

Lemma calculateProjection_null (dst : option Rect) (res : num) (root : bool)
    (this : System) :
  calculateProjection dst None res root this = Throw TypeError this.
Proof. reflexivity. Qed.

Lemma calculateProjection_frame (dst : option Rect) (sf : Rect) (res : num)
    (root : bool) (this : System) :
  calculateProjection dst (Some sf) res root this
  = Return tt (set_projectionMatrix (projected sf root (projectionMatrix this)) this).
Proof. destruct root; reflexivity. Qed.

Lemma projected_fields (sf : Rect) (root : bool) (pm : Mat) :
  let sign := if root then (- num1)%js else num1 in
  let a' := (num1 / Rectangle.width sf * num2)%js in
  let d' := (sign * (num1 / Rectangle.height sf * num2))%js in
  projected sf root pm
  = {| Matrix.a := a'; Matrix.b := Matrix.b pm; Matrix.c := Matrix.c pm;
       Matrix.d := d';
       Matrix.tx := (- num1 - Rectangle.x sf * a')%js;
       Matrix.ty := (- sign - Rectangle.y sf * d')%js |}.
Proof. destruct root; reflexivity. Qed.

(** Deriving again over an already derived matrix changes nothing. *)
Lemma projected_idem (sf : Rect) (root : bool) (pm : Mat) :
  projected sf root (projected sf root pm) = projected sf root pm.
Proof. rewrite !projected_fields. reflexivity. Qed.

(** Only [b] and [c] of the incoming matrix matter. *)
Lemma projected_ext (sf : Rect) (root : bool) (pm pm' : Mat) :
  Matrix.b pm = Matrix.b pm' -> Matrix.c pm = Matrix.c pm' ->
  projected sf root pm = projected sf root pm'.
Proof. intros Hb Hc. rewrite !projected_fields. cbn. now rewrite Hb, Hc. Qed.

Lemma update_null_source (dst' src' : option Rect) (res : num) (root : bool)
    (this : System) :
  resolved_source dst' src' this = None ->
  update dst' src' res root this
  = Throw TypeError
      (set_sourceFrame None
         (set_destinationFrame (resolved_destination dst' this) this)).
Proof.
  unfold resolved_source. intros H.
  unfold update, bind, modify, get. cbn. rewrite H. reflexivity.
Qed.

Lemma update_frame (dst' src' : option Rect) (res : num) (root : bool)
    (this : System) (sf : Rect) :
  resolved_source dst' src' this = Some sf ->
  update dst' src' res root this
  = Return tt
      {| destinationFrame := resolved_destination dst' this;
         sourceFrame := Some sf;
         defaultFrame := defaultFrame this;
         projectionMatrix :=
           composed (transform this) (projected sf root (projectionMatrix this));
         transform := transform this;
         renderer := propagated (renderer this) |}.
Proof.
  unfold resolved_source. intros H.
  destruct this as [dst src def pm t [slot sh calls]]. cbn in H.
  unfold update, bind, modify, get. cbn. rewrite H.
  destruct root, t, sh; reflexivity.
Qed.

End ClosedForms.

(** ** Frame resolution *)

(** C1 (the code at the failing input): on a system just constructed whose
    [defaultFrame] was set by the host, [update(null, null, resolution, root)]
    stores [defaultFrame] as the destination frame but [null] as the source
    frame, because line 78 falls back to the raw [destinationFrame] argument,
    and then throws a [TypeError] when [calculateProjection] reads
    [sourceFrame.width]; the matrix and the renderer are left untouched. *)
Theorem update_default_frame_source_null :
  forall (num : Type) (N : Number num) (r : Renderer num) (df : Rectangle.t num)
         (res : num) (root : bool),
    let this := set_defaultFrame (Some df) (constructor r) in
    let out := update None None res root this in
    out = Throw TypeError (set_destinationFrame (Some df) this)
    /\ destinationFrame (state_of out) = Some df
    /\ sourceFrame (state_of out) = None
    /\ sourceFrame (state_of out) <> defaultFrame (state_of out)
    /\ projectionMatrix (state_of out) = Matrix.new
    /\ renderer (state_of out) = r.
Proof.
  intros num N r df res root this out.
  assert (Hout : out = Throw TypeError (set_destinationFrame (Some df) this))
    by reflexivity.
  rewrite Hout. cbn. repeat split; try reflexivity. discriminate.
Qed.

(** C6: after [update(destA, srcA, resolution, root)] with both frames given,
    a following [update(null, null, resolution', root')] runs to its end with
    [destA] and [srcA] as its frames: they are what the fields hold afterwards,
    and the call does exactly what [update(destA, srcA, resolution', root')]
    would have done. *)
Theorem update_frames_persist :
  forall (num : Type) (N : Number num) (this : ProjectionSystem num)
         (destA srcA : Rectangle.t num) (res res' : num) (root root' : bool),
    let first := update (Some destA) (Some srcA) res root this in
    let second := update None None res' root' (state_of first) in
    returned first = true
    /\ returned second = true
    /\ resolved_destination None (state_of first) = Some destA
    /\ resolved_source None None (state_of first) = Some srcA
    /\ destinationFrame (state_of second) = Some destA
    /\ sourceFrame (state_of second) = Some srcA
    /\ second = update (Some destA) (Some srcA) res' root' (state_of first).
Proof.
  intros num N this destA srcA res res' root root' first second.
  assert (H1 : first = update (Some destA) (Some srcA) res root this) by reflexivity.
  rewrite (update_frame (Some destA) (Some srcA) res root this (sf := srcA)) in H1
    by reflexivity.
  assert (Hs : resolved_source None None (state_of first) = Some srcA)
    by (rewrite H1; reflexivity).
  assert (Hs' : resolved_source (Some destA) (Some srcA) (state_of first) = Some srcA)
    by reflexivity.
  assert (H2 : second = update None None res' root' (state_of first)) by reflexivity.
  rewrite (update_frame None None res' root' (state_of first) Hs) in H2.
  rewrite (update_frame (Some destA) (Some srcA) res' root' (state_of first) Hs').
  rewrite H2. rewrite H1. cbn. repeat split; reflexivity.
Qed.

(** ** Resolution *)

(** C8: the [resolution] argument does not enter the computation.  Two calls
    of [update] from the same state that differ only in [resolution] end the
    same way and in the same state (frames, [projectionMatrix], renderer), and
    the global uniform store holds the same matrix; the same is true of
    [calculateProjection] alone. *)
Theorem update_ignores_resolution :
  forall (num : Type) (N : Number num) (this : ProjectionSystem num)
         (dst' src' : option (Rectangle.t num)) (res res' : num) (root : bool),
    update dst' src' res root this = update dst' src' res' root this
    /\ uniform_value (state_of (update dst' src' res root this))
       = uniform_value (state_of (update dst' src' res' root this))
    /\ calculateProjection dst' src' res root this
       = calculateProjection dst' src' res' root this.
Proof.
  intros num N this dst' src' res res' root.
  assert (Hc : forall d s (st : ProjectionSystem num),
             calculateProjection d s res root st = calculateProjection d s res' root st).
  { intros d [sf|] st.
    - now rewrite !calculateProjection_frame.
    - now rewrite !calculateProjection_null. }
  assert (Hu : update dst' src' res root this = update dst' src' res' root this).
  { destruct (resolved_source dst' src' this) as [sf|] eqn:Hs.
    - now rewrite !(update_frame _ _ _ _ _ Hs).
    - now rewrite !(update_null_source _ _ _ _ _ Hs). }
  split; [exact Hu|]. split; [now rewrite Hu | apply Hc].
Qed.

(** ** Propagation to the renderer *)

(** C9 (as amended): whenever a source frame resolves, so that [update] gets to its
    propagation step, the call runs to its end whether a shader is bound or
    not; the global uniform store is made to refer to the live
    [projectionMatrix], [globalUniforms.update()] is called once, and then
    [syncUniformGroup] is called on the bound shader's globals group if there
    is a bound shader and not at all if there is none. *)
Theorem update_propagates :
  forall (num : Type) (N : Number num) (this : ProjectionSystem num)
         (dst' src' : option (Rectangle.t num)) (res : num) (root : bool)
         (sf : Rectangle.t num),
    resolved_source dst' src' this = Some sf ->
    let out := update dst' src' res root this in
    returned out = true
    /\ globalUniforms_projectionMatrix (renderer (state_of out)) = ThisProjectionMatrix
    /\ uniform_value (state_of out) = projectionMatrix (state_of out)
    /\ shader_shader (renderer (state_of out)) = shader_shader (renderer this)
    /\ hostCalls (renderer (state_of out))
       = hostCalls (renderer this)
         ++ GlobalUniforms_update
            :: match shader_shader (renderer this) with
               | Some sh => [Shader_syncUniformGroup (uniforms_globals sh)]
               | None => []
               end.
Proof.
  intros num N this dst' src' res root sf Hs out.
  assert (Hout : out = update dst' src' res root this) by reflexivity.
  rewrite (update_frame _ _ res root _ Hs) in Hout. rewrite Hout.
  clear Hout out Hs.
  destruct this as [dst src def pm t [slot [sh|] calls]];
    unfold uniform_value, propagated; cbn; repeat split; try reflexivity.
  now rewrite <- app_assoc.
Qed.

(** No shader bound: the call returns, and [globalUniforms.update()] is the
    only host call. *)
Lemma update_propagates_witness :
  let out := update (Some Sample.frame) None 1%float false Sample.fresh in
  returned out = true
  /\ globalUniforms_projectionMatrix (renderer (state_of out)) = ThisProjectionMatrix
  /\ uniform_value (state_of out) = projectionMatrix (state_of out)
  /\ shader_shader (renderer (state_of out)) = None
  /\ hostCalls (renderer (state_of out)) = [GlobalUniforms_update].
Proof.
  exact (update_propagates float_Number Sample.fresh (Some Sample.frame) None
           1%float false (sf := Sample.frame) eq_refl).
Defined.

(** C9 (the claim as stated fails): on a system just constructed, with no
    shader bound, [update(null, null, 1, false)] resolves no source frame and
    throws in [calculateProjection], before line 90: nothing is written to
    the global uniform store, which still holds the host's matrix, and
    [globalUniforms.update()] is not called. *)
Lemma update_throws_before_propagation :
  let out := update None None 1%float false Sample.fresh in
  shader_shader (renderer Sample.fresh) = None
  /\ out = Throw TypeError Sample.fresh
  /\ returned out = false
  /\ hostCalls (renderer (state_of out)) = []
  /\ globalUniforms_projectionMatrix (renderer (state_of out)) = OtherMatrix Matrix.new
  /\ globalUniforms_projectionMatrix (renderer (state_of out)) <> ThisProjectionMatrix.
Proof.
  cbv zeta. repeat split; try reflexivity. discriminate.
Qed.

(** A shader bound: its globals group is synchronised after the upload. *)
Example update_propagates_with_shader :
  hostCalls (renderer (state_of
    (update (Some Sample.frame) (Some Sample.frame) 1%float false
       (constructor Sample.host_with_shader))))
  = [GlobalUniforms_update; Shader_syncUniformGroup 7].
Proof. reflexivity. Qed.

(** ** Exact arithmetic *)

Section Exact.
Context {num : Type} {N : Number num} {E : ExactArith num}.

Add Ring exact_num_ring : exact_ring.

(** [1 / v * 2] is [2 / v]. *)
Lemma one_div_mul_two (v : num) : (num1 / v * num2 = num2 / v)%js.
Proof.
  rewrite exact_div_mul. f_equal. ring.
Qed.



End Exact.

(** ** Resolution of the frames, again *)

Section Resolution.
Context {num : Type} {N : Number num}.

Local Abbreviation System := (ProjectionSystem num).
Local Abbreviation Rect := (Rectangle.t num).

Lemma or_else_None {A : Type} (l r : option A) :
  l ||| r = None -> l = None /\ r = None.
Proof. destruct l; cbn; intros H; [discriminate | now split]. Qed.

(** [update] runs to its end exactly when a source frame resolves. *)
Lemma update_returned (dst' src' : option Rect) (res : num) (root : bool)
    (this : System) :
  returned (update dst' src' res root this) = true
  <-> exists sf, resolved_source dst' src' this = Some sf.
Proof.
  destruct (resolved_source dst' src' this) as [sf|] eqn:Hs.
  - rewrite (update_frame _ _ res root _ Hs). cbn. split; eauto.
  - rewrite (update_null_source _ _ res root _ Hs). cbn.
    split; [discriminate | intros [sf Hsf]; discriminate].
Qed.

(** [update] never assigns [transform] or [defaultFrame]. *)
Lemma update_transform (dst' src' : option Rect) (res : num) (root : bool)
    (this : System) :
  transform (state_of (update dst' src' res root this)) = transform this.
Proof.
  destruct (resolved_source dst' src' this) as [sf|] eqn:Hs.
  - now rewrite (update_frame _ _ res root _ Hs).
  - now rewrite (update_null_source _ _ res root _ Hs).
Qed.

(** The same arguments resolve to the same frames on the state [update]
    leaves. *)
Lemma resolved_source_again (dst' src' : option Rect) (res : num) (root : bool)
    (this : System) :
  resolved_source dst' src' (state_of (update dst' src' res root this))
  = resolved_source dst' src' this.
Proof.
  destruct (resolved_source dst' src' this) as [sf|] eqn:Hs.
  - rewrite (update_frame _ _ res root _ Hs). cbn.
    unfold resolved_source in *. cbn.
    destruct src' as [s|]; cbn in *; [exact Hs | reflexivity].
  - rewrite (update_null_source _ _ res root _ Hs). cbn.
    unfold resolved_source in *. cbn.
    apply or_else_None in Hs. destruct Hs as [Hs Hd].
    apply or_else_None in Hs. destruct Hs as [Hs _].
    now rewrite Hs, Hd.
Qed.

Lemma resolved_destination_again (dst' src' : option Rect) (res : num)
    (root : bool) (this : System) :
  resolved_destination dst' (state_of (update dst' src' res root this))
  = resolved_destination dst' this.
Proof.
  destruct (resolved_source dst' src' this) as [sf|] eqn:Hs.
  - rewrite (update_frame _ _ res root _ Hs). unfold resolved_destination. cbn.
    destruct dst' as [dA|]; cbn; [reflexivity|].
    destruct (destinationFrame this); cbn; [reflexivity|].
    destruct (defaultFrame this); reflexivity.
  - rewrite (update_null_source _ _ res root _ Hs). unfold resolved_destination. cbn.
    destruct dst' as [dA|]; cbn; [reflexivity|].
    destruct (destinationFrame this); cbn; [reflexivity|].
    destruct (defaultFrame this); reflexivity.
Qed.

End Resolution.

(** ** What [calculateProjection] writes *)

(** C2 (as amended): [calculateProjection] on a source frame
    [{x, y, width, height}] runs to its end and, with [sign] being -1 for
    [root] and +1 otherwise, leaves [a = 1 / width * 2],
    [d = sign * (1 / height * 2)], [tx = -1 - x * a] and [ty = -sign - y * d];
    in exact arithmetic these [a] and [d] are [2 / width] and
    [sign * (2 / height)].  [b] and [c] are not assigned: they keep the values
    they had, which are 0 on a system just constructed.  In doubles, the frame
    [{0, 0, 800, 600}] with [root = false] on a system just constructed gives
    [a = 0.0025], [d = 1/300], [b = c = 0], [tx = -1], [ty = -1]. *)
Theorem calculateProjection_components :
  (forall (num : Type) (N : Number num) (this : ProjectionSystem num)
          (dst : option (Rectangle.t num)) (sf : Rectangle.t num) (res : num)
          (root : bool),
      let sign := if root then (- num1)%js else num1 in
      let out := calculateProjection dst (Some sf) res root this in
      let pm := projectionMatrix this in
      let pm' := projectionMatrix (state_of out) in
      returned out = true
      /\ Matrix.a pm' = (num1 / Rectangle.width sf * num2)%js
      /\ Matrix.d pm' = (sign * (num1 / Rectangle.height sf * num2))%js
      /\ Matrix.b pm' = Matrix.b pm
      /\ Matrix.c pm' = Matrix.c pm
      /\ Matrix.tx pm' = (- num1 - Rectangle.x sf * Matrix.a pm')%js
      /\ Matrix.ty pm' = (- sign - Rectangle.y sf * Matrix.d pm')%js
      /\ (ExactArith num ->
          Matrix.a pm' = (num2 / Rectangle.width sf)%js
          /\ Matrix.d pm' = (sign * (num2 / Rectangle.height sf))%js)
      /\ (forall r : Renderer num, this = constructor r ->
          Matrix.b pm' = num0 /\ Matrix.c pm' = num0))
  /\ (let out := calculateProjection None (Some Sample.frame) 1%float false Sample.fresh in
      let pm' := projectionMatrix (state_of out) in
      Matrix.a pm' = 0.0025%float
      /\ Matrix.d pm' = (1 / 300)%float
      /\ Matrix.b pm' = 0%float
      /\ Matrix.c pm' = 0%float
      /\ Matrix.tx pm' = (-1)%float
      /\ Matrix.ty pm' = (-1)%float).
Proof.
  split.
  - intros num N this dst sf res root sign out pm pm'.
    assert (Hpm' : pm' = projected sf root pm).
    { unfold pm', out. now rewrite calculateProjection_frame. }
    assert (Hret : returned out = true).
    { unfold out. now rewrite calculateProjection_frame. }
    rewrite Hpm', projected_fields. cbn.
    repeat split; try reflexivity; try assumption.
    + apply one_div_mul_two.
    + fold sign. now rewrite one_div_mul_two.
    + subst pm this. reflexivity.
    + subst pm this. reflexivity.
  - vm_compute. repeat split; reflexivity.
Qed.

(** The general part at the offset frame [{100, 50, 800, 600}] in exact
    arithmetic, on a system just constructed. *)
Lemma calculateProjection_components_witness :
  let frame := Rectangle.mk (Q2Qc 100) (Q2Qc 50) (Q2Qc 800) (Q2Qc 600) in
  let this := constructor {| globalUniforms_projectionMatrix := ThisProjectionMatrix;
                             shader_shader := None; hostCalls := [] |} in
  let pm' := projectionMatrix (state_of (calculateProjection None (Some frame) (Q2Qc 1) true this)) in
  (Matrix.a pm' = (num2 / Q2Qc 800)%js /\ Matrix.d pm' = (- num1 * (num2 / Q2Qc 600))%js)
  /\ (Matrix.b pm' = num0 /\ Matrix.c pm' = num0).
Proof.
  intros frame this pm'.
  pose proof (proj1 calculateProjection_components Qc Qc_Number this None frame
                (Q2Qc 1) true) as H.
  cbv zeta in H.
  destruct H as (_ & _ & _ & _ & _ & _ & _ & Hexact & Hfresh).
  split.
  - exact (Hexact Qc_ExactArith).
  - exact (Hfresh _ eq_refl).
Defined.

(** C2 (the claim as stated fails): on the state an [update] with a
    quarter-turn [transform] leaves, [calculateProjection] ends with [b] and
    [c] different from 0. *)
Lemma calculateProjection_stale_b_c :
  let this := state_of (update (Some Sample.frame) (Some Sample.frame) 1%float false
                          Sample.turned) in
  let out := calculateProjection (Some Sample.frame) (Some Sample.frame) 1%float false this in
  Matrix.b (projectionMatrix (state_of out)) <> 0%float
  /\ Matrix.c (projectionMatrix (state_of out)) <> 0%float.
Proof.
  split; apply float_neq; vm_compute; reflexivity.
Qed.

Section StaleComponents.
Context {num : Type} {N : Number num}.

Local Abbreviation System := (ProjectionSystem num).
Local Abbreviation Rect := (Rectangle.t num).

Lemma calculateProjection_b_c (dst src : option Rect) (res : num) (root : bool)
    (this : System) :
  let this' := state_of (calculateProjection dst src res root this) in
  Matrix.b (projectionMatrix this') = Matrix.b (projectionMatrix this)
  /\ Matrix.c (projectionMatrix this') = Matrix.c (projectionMatrix this).
Proof.
  destruct src as [sf|]; cbn zeta.
  - rewrite calculateProjection_frame. cbn. rewrite projected_fields. now split.
  - rewrite calculateProjection_null. now split.
Qed.

Lemma update_b_c_no_transform (dst' src' : option Rect) (res : num) (root : bool)
    (this : System) :
  transform this = None ->
  let this' := state_of (update dst' src' res root this) in
  Matrix.b (projectionMatrix this') = Matrix.b (projectionMatrix this)
  /\ Matrix.c (projectionMatrix this') = Matrix.c (projectionMatrix this).
Proof.
  intros Ht. cbn zeta.
  destruct (resolved_source dst' src' this) as [sf|] eqn:Hs.
  - rewrite (update_frame _ _ res root _ Hs). cbn. rewrite Ht. cbn.
    rewrite projected_fields. now split.
  - rewrite (update_null_source _ _ res root _ Hs). now split.
Qed.

Lemma updates_b_c_no_transform (calls : list (UpdateCall num)) :
  forall this : System,
    transform this = None ->
    Matrix.b (projectionMatrix (updates calls this)) = Matrix.b (projectionMatrix this)
    /\ Matrix.c (projectionMatrix (updates calls this)) = Matrix.c (projectionMatrix this).
Proof.
  induction calls as [|call rest IH]; intros this Ht; cbn [updates].
  - now split.
  - destruct (update_b_c_no_transform (call_destinationFrame call)
                (call_sourceFrame call) (call_resolution call) (call_root call)
                this Ht) as [Hb Hc].
    cbn zeta in Hb, Hc.
    pose proof (update_transform (call_destinationFrame call)
                  (call_sourceFrame call) (call_resolution call) (call_root call)
                  this) as Ht'.
    rewrite Ht in Ht'.
    destruct (IH _ Ht') as [Hb' Hc'].
    rewrite Hb in Hb'. rewrite Hc in Hc'. now split.
Qed.

End StaleComponents.

(** C5: [calculateProjection] assigns [a], [d], [tx] and [ty] only.  Whatever
    its arguments and however it ends, [b] and [c] of [projectionMatrix] are
    afterwards what they were before, and nothing but [projectionMatrix]
    changes.  Hence in every later [update] the derivation hands over the [b]
    and [c] the previous update left: with [transform] null they are still
    there when the update ends, after any number of updates; with [transform]
    set they are the [b] and [c] of the matrix the transform is appended to. *)
Theorem calculateProjection_keeps_b_c :
  forall (num : Type) (N : Number num) (this : ProjectionSystem num),
    (forall (dst src : option (Rectangle.t num)) (res : num) (root : bool),
        let this' := state_of (calculateProjection dst src res root this) in
        Matrix.b (projectionMatrix this') = Matrix.b (projectionMatrix this)
        /\ Matrix.c (projectionMatrix this') = Matrix.c (projectionMatrix this)
        /\ this' = set_projectionMatrix (projectionMatrix this') this)
    /\ (forall calls : list (UpdateCall num),
          transform this = None ->
          Matrix.b (projectionMatrix (updates calls this)) = Matrix.b (projectionMatrix this)
          /\ Matrix.c (projectionMatrix (updates calls this)) = Matrix.c (projectionMatrix this))
    /\ (forall (dst' src' : option (Rectangle.t num)) (res : num) (root : bool)
               (t : Matrix.t num) (sf : Rectangle.t num),
          transform this = Some t ->
          resolved_source dst' src' this = Some sf ->
          let derived :=
            projectionMatrix
              (state_of (calculateProjection (resolved_destination dst' this) (Some sf)
                           res root this)) in
          Matrix.b derived = Matrix.b (projectionMatrix this)
          /\ Matrix.c derived = Matrix.c (projectionMatrix this)
          /\ projectionMatrix (state_of (update dst' src' res root this))
             = Matrix.append derived t).
Proof.
  intros num N this. split; [|split].
  - intros dst src res root this'.
    destruct (calculateProjection_b_c dst src res root this) as [Hb Hc].
    repeat split; try assumption.
    unfold this'. destruct src as [sf|].
    + rewrite calculateProjection_frame. now destruct this.
    + rewrite calculateProjection_null. now destruct this.
  - intros calls Ht. now apply updates_b_c_no_transform.
  - intros dst' src' res root t sf Ht Hs derived.
    destruct (calculateProjection_b_c (resolved_destination dst' this) (Some sf)
                res root this) as [Hb Hc].
    repeat split; try assumption.
    assert (Hd : derived = projected sf root (projectionMatrix this)).
    { unfold derived. now rewrite calculateProjection_frame. }
    rewrite Hd, (update_frame _ _ res root _ Hs). cbn. now rewrite Ht.
Qed.

(** The quarter turn leaves [b = 0.0025] behind; with the transform taken
    away, two more updates keep that very [b], which is not 0. *)
Lemma calculateProjection_keeps_b_c_witness :
  let after_turn :=
    state_of (update (Some Sample.frame) (Some Sample.frame) 1%float false Sample.turned) in
  let this := set_transform None after_turn in
  let call := {| call_destinationFrame := None; call_sourceFrame := None;
                 call_resolution := 1%float; call_root := false |} in
  (Matrix.b (projectionMatrix (updates [call; call] this)) = Matrix.b (projectionMatrix this)
   /\ Matrix.c (projectionMatrix (updates [call; call] this)) = Matrix.c (projectionMatrix this))
  /\ Matrix.b (projectionMatrix this) = 0.0025%float.
Proof.
  intros after_turn this call. split.
  - exact (proj1 (proj2 (calculateProjection_keeps_b_c float_Number this))
             [call; call] eq_refl).
  - vm_compute. reflexivity.
Defined.

(** ** Calling [update] twice *)

(** C3 (as amended): when [update] is called twice in succession with the
    same arguments, and [transform] is null, or more generally the first call
    left [b] and [c] of [projectionMatrix] as it found them, then the second
    call ends as the first did and leaves [projectionMatrix] and both stored
    frames exactly as the first call left them. *)
Theorem update_twice :
  forall (num : Type) (N : Number num) (this : ProjectionSystem num)
         (dst' src' : option (Rectangle.t num)) (res : num) (root : bool),
    let first := update dst' src' res root this in
    let second := update dst' src' res root (state_of first) in
    transform this = None
    \/ (Matrix.b (projectionMatrix (state_of first)) = Matrix.b (projectionMatrix this)
        /\ Matrix.c (projectionMatrix (state_of first)) = Matrix.c (projectionMatrix this)) ->
    projectionMatrix (state_of second) = projectionMatrix (state_of first)
    /\ destinationFrame (state_of second) = destinationFrame (state_of first)
    /\ sourceFrame (state_of second) = sourceFrame (state_of first)
    /\ returned second = returned first.
Proof.
  intros num N this dst' src' res root first second Hkept.
  assert (Hbc : Matrix.b (projectionMatrix (state_of first)) = Matrix.b (projectionMatrix this)
                /\ Matrix.c (projectionMatrix (state_of first)) = Matrix.c (projectionMatrix this)).
  { destruct Hkept as [Ht|H]; [|exact H].
    exact (update_b_c_no_transform dst' src' res root this Ht). }
  clear Hkept. destruct Hbc as [Hb Hc].
  pose proof (resolved_source_again dst' src' res root this) as Hs2.
  pose proof (resolved_destination_again dst' src' res root this) as Hd2.
  pose proof (update_transform dst' src' res root this) as Ht2.
  fold first in Hs2, Hd2, Ht2.
  destruct (resolved_source dst' src' this) as [sf|] eqn:Hs.
  - assert (H2 : second = update dst' src' res root (state_of first)) by reflexivity.
    rewrite (update_frame _ _ res root _ Hs2) in H2.
    assert (Hp : projected sf root (projectionMatrix (state_of first))
                 = projected sf root (projectionMatrix this))
      by (apply projected_ext; assumption).
    rewrite Hp, Hd2, Ht2 in H2.
    assert (H1 : first = update dst' src' res root this) by reflexivity.
    rewrite (update_frame _ _ res root _ Hs) in H1.
    rewrite H2, H1. cbn. repeat split; reflexivity.
  - assert (H2 : second = update dst' src' res root (state_of first)) by reflexivity.
    rewrite (update_null_source _ _ res root _ Hs2) in H2.
    rewrite Hd2 in H2.
    assert (H1 : first = update dst' src' res root this) by reflexivity.
    rewrite (update_null_source _ _ res root _ Hs) in H1.
    rewrite H2, H1. cbn. repeat split; reflexivity.
Qed.

(** Without a transform, on a system just constructed. *)
Lemma update_twice_witness :
  let first := update (Some Sample.frame) (Some Sample.offset_frame) 1%float true
                 Sample.fresh in
  let second := update (Some Sample.frame) (Some Sample.offset_frame) 1%float true
                  (state_of first) in
  projectionMatrix (state_of second) = projectionMatrix (state_of first)
  /\ destinationFrame (state_of second) = destinationFrame (state_of first)
  /\ sourceFrame (state_of second) = sourceFrame (state_of first)
  /\ returned second = returned first.
Proof.
  exact (update_twice float_Number Sample.fresh (Some Sample.frame)
           (Some Sample.offset_frame) 1%float true (or_introl eq_refl)).
Defined.

(** C3 (the claim as stated fails): with the quarter turn as [transform], two
    calls of [update] with the same arguments both run to their end, and the
    second leaves another [projectionMatrix] than the first: [a] is 0 after
    the first call and not after the second. *)
Lemma update_twice_differs :
  let first := update (Some Sample.frame) (Some Sample.frame) 1%float false
                 Sample.turned in
  let second := update (Some Sample.frame) (Some Sample.frame) 1%float false
                  (state_of first) in
  returned first = true
  /\ returned second = true
  /\ PrimFloat.eqb (Matrix.a (projectionMatrix (state_of second)))
       (Matrix.a (projectionMatrix (state_of first))) = false
  /\ projectionMatrix (state_of second) <> projectionMatrix (state_of first).
Proof.
  cbv zeta. split; [reflexivity|]. split; [reflexivity|].
  split; [vm_compute; reflexivity|].
  intros H. apply (f_equal (@Matrix.a float)) in H. revert H.
  apply float_neq; vm_compute; reflexivity.
Qed.

(** ** The transform *)




(** ** Doubles *)

Section Doubles.

(** Rounding to nearest even is symmetric in the sign. *)
Lemma binary_round_aux_opp (sx : bool) (mx ex : Z) (lx : location) :
  SFopp (binary_round_aux prec emax sx mx ex lx)
  = binary_round_aux prec emax (negb sx) mx ex lx.
Proof.
  unfold binary_round_aux.
  destruct (shr_fexp prec emax mx ex lx) as [mrs' e'].
  destruct (shr_fexp prec emax _ e' loc_Exact) as [mrs'' e''].
  destruct (shr_m mrs''); try reflexivity.
  destruct (Z.leb e'' (emax - prec)); reflexivity.
Qed.

Lemma SFmul_opp_l (u v : spec_float) :
  SF64mul (SFopp u) v = SFopp (SF64mul u v).
Proof.
  unfold SF64mul.
  destruct u as [su|su| |su mu eu], v as [sv|sv| |sv mv ev]; cbn;
    rewrite ?binary_round_aux_opp; try reflexivity;
    destruct su, sv; reflexivity.
Qed.

Lemma SFmul_opp_r (u v : spec_float) :
  SF64mul u (SFopp v) = SFopp (SF64mul u v).
Proof.
  unfold SF64mul.
  destruct u as [su|su| |su mu eu], v as [sv|sv| |sv mv ev]; cbn;
    rewrite ?binary_round_aux_opp; try reflexivity;
    destruct su, sv; reflexivity.
Qed.

(** [-u * v] is [-(u * v)], and so is [u * -v]: also for zeros, infinities
    and NaN. *)
Lemma mul_opp_l (u v : float) : (- u * v = - (u * v))%float.
Proof.
  apply Prim2SF_inj. rewrite opp_spec, !mul_spec, opp_spec. apply SFmul_opp_l.
Qed.

Lemma mul_opp_r (u v : float) : (u * - v = - (u * v))%float.
Proof.
  apply Prim2SF_inj. rewrite opp_spec, !mul_spec, opp_spec. apply SFmul_opp_r.
Qed.

(** A double that compares equal to 0 is one of the two zeros. *)
Lemma is_zero_inv (u : float) :
  is_zero u = true -> u = 0%float \/ u = (-0)%float.
Proof.
  unfold is_zero. rewrite FloatAxioms.eqb_spec.
  rewrite <- (SF2Prim_Prim2SF u) at 2 3.
  destruct (Prim2SF u) as [[|]|[|]| |[|] m e]; cbn; try discriminate;
    intros _; [right | left]; reflexivity.
Qed.

(** A zero times anything is a zero or NaN. *)
Lemma zero_mul_cases (u v : float) :
  is_zero u = true ->
  (u * v = 0 \/ u * v = -0 \/ u * v = nan)%float.
Proof.
  intros Hu.
  assert (H : exists s, Prim2SF u = S754_zero s).
  { destruct (is_zero_inv Hu) as [-> | ->]; eexists; reflexivity. }
  destruct H as [s Hs].
  rewrite <- (SF2Prim_Prim2SF (u * v)), mul_spec, Hs.
  destruct (Prim2SF v) as [sv|sv| |sv mv ev]; cbn; auto;
    destruct s, sv; cbn; auto.
Qed.

(** The [ty] of the two orientations for a zero [y]: [1 - y * -v] against
    [-1 - y * v]. *)
Lemma ty_flip (y v : float) :
  is_zero y = true ->
  (- - 1 - y * - v = - (- 1 - y * v))%float.
Proof.
  intros Hy. rewrite mul_opp_r.
  destruct (zero_mul_cases v Hy) as [-> | [-> | ->]]; reflexivity.
Qed.

(** One over a zero, times two, is an infinity of the zero's sign. *)
Lemma scale_of_zero (u : float) :
  is_zero u = true -> is_infinity (1 / u * 2)%float = true.
Proof.
  intros Hu. destruct (is_zero_inv Hu) as [-> | ->]; reflexivity.
Qed.

Lemma signed_scale_of_zero (root : bool) (u : float) :
  is_zero u = true ->
  is_infinity ((if root then - 1 else 1) * (1 / u * 2))%float = true.
Proof.
  intros Hu. destruct root, (is_zero_inv Hu) as [-> | ->]; reflexivity.
Qed.

End Doubles.

(** ** The two orientations *)

(** C7: for every source frame, in doubles, [calculateProjection] with
    [root = false] multiplies the vertical scale by +1 and with [root = true]
    by -1; the [d] it leaves for [root = true] is the negation of the [d] it
    leaves for [root = false]; and when the frame's [y] is a zero, the [ty] for
    [root = true] is the negation of the [ty] for [root = false]. *)
Theorem calculateProjection_sign_flip :
  forall (this this' : ProjectionSystem float) (dst dst' : option (Rectangle.t float))
         (sf : Rectangle.t float) (res res' : float),
    let flipped :=
      projectionMatrix (state_of (calculateProjection dst (Some sf) res true this)) in
    let upright :=
      projectionMatrix (state_of (calculateProjection dst' (Some sf) res' false this')) in
    Matrix.d upright = (1 * (1 / Rectangle.height sf * 2))%float
    /\ Matrix.d flipped = (- 1 * (1 / Rectangle.height sf * 2))%float
    /\ Matrix.d flipped = (- Matrix.d upright)%float
    /\ (is_zero (Rectangle.y sf) = true ->
        Matrix.ty flipped = (- Matrix.ty upright)%float).
Proof.
  intros this this' dst dst' sf res res' flipped upright.
  assert (Hf : flipped = projected sf true (projectionMatrix this)).
  { unfold flipped. now rewrite calculateProjection_frame. }
  assert (Hu : upright = projected sf false (projectionMatrix this')).
  { unfold upright. now rewrite calculateProjection_frame. }
  rewrite Hf, Hu, !projected_fields. cbn.
  set (q := (1 / Rectangle.height sf * 2)%float).
  assert (Hd : ((-1) * q = - (1 * q))%float) by exact (mul_opp_l 1%float q).
  split; [reflexivity|]. split; [reflexivity|]. split.
  - exact Hd.
  - intros Hy. rewrite Hd. exact (ty_flip (1 * q)%float Hy).
Qed.

(** The frame [{0, 0, 800, 600}]: [ty] is 1 for [root = true] and -1 for
    [root = false]. *)
Lemma calculateProjection_sign_flip_witness :
  let flipped :=
    projectionMatrix
      (state_of (calculateProjection None (Some Sample.frame) 1%float true Sample.fresh)) in
  let upright :=
    projectionMatrix
      (state_of (calculateProjection None (Some Sample.frame) 1%float false Sample.fresh)) in
  Matrix.ty flipped = (- Matrix.ty upright)%float
  /\ Matrix.ty flipped = 1%float
  /\ Matrix.ty upright = (-1)%float
  /\ Matrix.d flipped = (- (1 / 300))%float.
Proof.
  split.
  - exact (proj2 (proj2 (proj2
             (calculateProjection_sign_flip Sample.fresh Sample.fresh None None
                Sample.frame 1%float 1%float))) eq_refl).
  - vm_compute. repeat split; reflexivity.
Defined.

(** ** Degenerate frames *)

(** C10: in doubles, [update] on a resolved source frame runs to its end
    without throwing, whatever the frame's numbers are: nothing is validated.
    For a [width] that is a zero the derivation computes an infinite [a], and
    for a [height] that is a zero an infinite [d]; that matrix, with
    [transform] appended if there is one, is what [projectionMatrix] holds
    afterwards, and the global uniform store refers to it as it is. *)
Theorem update_degenerate_frame :
  forall (this : ProjectionSystem float) (dst' src' : option (Rectangle.t float))
         (res : float) (root : bool) (sf : Rectangle.t float),
    resolved_source dst' src' this = Some sf ->
    let out := update dst' src' res root this in
    let derived :=
      projectionMatrix
        (state_of (calculateProjection (resolved_destination dst' this) (Some sf)
                     res root this)) in
    returned out = true
    /\ (is_zero (Rectangle.width sf) = true -> is_infinity (Matrix.a derived) = true)
    /\ (is_zero (Rectangle.height sf) = true -> is_infinity (Matrix.d derived) = true)
    /\ projectionMatrix (state_of out)
       = match transform this with
         | Some t => Matrix.append derived t
         | None => derived
         end
    /\ uniform_value (state_of out) = projectionMatrix (state_of out).
Proof.
  intros this dst' src' res root sf Hs out derived.
  assert (Hd : derived = projected sf root (projectionMatrix this)).
  { unfold derived. now rewrite calculateProjection_frame. }
  assert (Hout : out = update dst' src' res root this) by reflexivity.
  rewrite (update_frame _ _ res root _ Hs) in Hout.
  split; [now rewrite Hout|].
  split; [rewrite Hd, projected_fields; cbn; apply scale_of_zero|].
  split; [rewrite Hd, projected_fields; cbn; apply signed_scale_of_zero|].
  split.
  - rewrite Hout, Hd. reflexivity.
  - rewrite Hout. unfold uniform_value, propagated. cbn.
    destruct (shader_shader (renderer this)); reflexivity.
Qed.

(** A frame of width 0 and height 0: [a] and [d] are [+Infinity], [tx] and
    [ty] are NaN, and that is the matrix a shader reads. *)
Lemma update_degenerate_frame_witness :
  let empty := Rectangle.mk 0%float 0%float 0%float 0%float in
  let out := update (Some empty) None 1%float false Sample.fresh in
  (returned out = true
   /\ is_infinity (Matrix.a (projectionMatrix
                      (state_of (calculateProjection (Some empty) (Some empty) 1%float
                                   false Sample.fresh)))) = true
   /\ is_infinity (Matrix.d (projectionMatrix
                      (state_of (calculateProjection (Some empty) (Some empty) 1%float
                                   false Sample.fresh)))) = true
   /\ uniform_value (state_of out) = projectionMatrix (state_of out))
  /\ projectionMatrix (state_of out)
     = Matrix.mk infinity 0%float 0%float infinity nan nan.
Proof.
  intros empty out. split.
  - pose proof (update_degenerate_frame Sample.fresh (Some empty) None 1%float false
                  (sf := empty) eq_refl) as H.
    cbv zeta in H. destruct H as (Hret & Ha & Hd & _ & Hu).
    exact (conj Hret (conj (Ha eq_refl) (conj (Hd eq_refl) Hu))).
  - vm_compute. reflexivity.
Defined.

(** * Further properties of the two methods *)

(** The rationals are an exact arithmetic with division. *)
#[export] Instance Qc_ExactField : ExactField Qc.
Proof.
  split.
  - exact Qc_ExactArith.
  - apply Qc_is_canon. reflexivity.
  - intros p q Hq. cbn in *. unfold Qcdiv. field. exact Hq.
Qed.

(** ** When [update] throws *)

Section Failure.
Context {num : Type} {N : Number num}.

Local Abbreviation System := (ProjectionSystem num).
Local Abbreviation Rect := (Rectangle.t num).

Lemma resolved_source_None (dst' src' : option Rect) (this : System) :
  resolved_source dst' src' this = None
  <-> src' = None /\ sourceFrame this = None /\ dst' = None.
Proof.
  unfold resolved_source. split.
  - intros H. apply or_else_None in H. destruct H as [H Hd].
    apply or_else_None in H. now destruct H.
  - intros (-> & -> & ->). reflexivity.
Qed.

Lemma returned_false {A : Type} (out : Completion System A) :
  returned out = false <-> returned out <> true.
Proof. destruct out; cbn; split; congruence. Qed.

End Failure.

(** X1: [update] throws exactly when the [sourceFrame] argument, the stored
    source frame and the [destinationFrame] argument are all null, whatever
    [defaultFrame] and the stored destination frame are.  What it throws is a
    [TypeError]; by then it has overwritten [destinationFrame] with the stored
    destination frame or else [defaultFrame], and has touched nothing else:
    the matrix, [transform], [defaultFrame] and the renderer are as before. *)
Theorem update_throws_iff :
  forall (num : Type) (N : Number num) (this : ProjectionSystem num)
         (dst' src' : option (Rectangle.t num)) (res : num) (root : bool),
    let out := update dst' src' res root this in
    (returned out = false
     <-> src' = None /\ sourceFrame this = None /\ dst' = None)
    /\ (returned out = false ->
        out = Throw TypeError
                (set_destinationFrame (destinationFrame this ||| defaultFrame this) this)
        /\ sourceFrame (state_of out) = None
        /\ projectionMatrix (state_of out) = projectionMatrix this
        /\ transform (state_of out) = transform this
        /\ defaultFrame (state_of out) = defaultFrame this
        /\ renderer (state_of out) = renderer this).
Proof.
  intros num N this dst' src' res root out.
  assert (Hiff : returned out = false
                 <-> src' = None /\ sourceFrame this = None /\ dst' = None).
  { rewrite <- resolved_source_None, returned_false. unfold out.
    rewrite update_returned. split.
    - intros Hn. destruct (resolved_source dst' src' this) as [sf|]; [|reflexivity].
      exfalso. apply Hn. now exists sf.
    - intros Hs [sf Hsf]. congruence. }
  split; [exact Hiff|].
  intros Hf. destruct (proj1 Hiff Hf) as (Hsrc & Hst & Hdst).
  assert (Hs : resolved_source dst' src' this = None)
    by (apply resolved_source_None; auto).
  assert (Hout : out = update dst' src' res root this) by reflexivity.
  rewrite (update_null_source _ _ res root _ Hs) in Hout.
  rewrite Hout. subst dst'. unfold resolved_destination. cbn.
  repeat split; try reflexivity; try assumption.
  destruct this as [d s def pm t r]. cbn in *. now subst s.
Qed.

(** ** Runs of [update] calls *)

Section Runs.
Context {num : Type} {N : Number num}.

Local Abbreviation System := (ProjectionSystem num).
Local Abbreviation Rect := (Rectangle.t num).

(** With a stored source frame every argument pair resolves. *)
Lemma resolved_source_stored (dst' src' : option Rect) (this : System) (sf0 : Rect) :
  sourceFrame this = Some sf0 ->
  exists sf, resolved_source dst' src' this = Some sf.
Proof.
  intros Hst. unfold resolved_source. rewrite Hst.
  destruct src' as [s|]; cbn; eauto.
Qed.

(** An [update] that got to its end has stored a source frame. *)
Lemma update_stores_source (dst' src' : option Rect) (res : num) (root : bool)
    (this : System) :
  returned (update dst' src' res root this) = true ->
  exists sf, sourceFrame (state_of (update dst' src' res root this)) = Some sf.
Proof.
  intros Hret. apply update_returned in Hret. destruct Hret as [sf Hs].
  exists sf. now rewrite (update_frame _ _ res root _ Hs).
Qed.

Lemma updates_store_source (calls : list (UpdateCall num)) :
  forall (this : System) (sf0 : Rect),
    sourceFrame this = Some sf0 ->
    exists sf, sourceFrame (updates calls this) = Some sf.
Proof.
  induction calls as [|call rest IH]; intros this sf0 Hst; cbn [updates].
  - eauto.
  - destruct (resolved_source_stored (call_destinationFrame call)
                (call_sourceFrame call) this Hst) as [sf Hs].
    apply (IH _ sf). now rewrite (update_frame _ _ _ _ _ Hs).
Qed.

(** What [update] leaves alone on the renderer's side, and what it adds. *)
Lemma update_renderer (dst' src' : option Rect) (res : num) (root : bool)
    (this : System) :
  let this' := state_of (update dst' src' res root this) in
  defaultFrame this' = defaultFrame this
  /\ shader_shader (renderer this') = shader_shader (renderer this)
  /\ hostCalls (renderer this')
     = hostCalls (renderer this)
       ++ (if returned (update dst' src' res root this)
           then calls_of_update (renderer this) else []).
Proof.
  cbn zeta. destruct (resolved_source dst' src' this) as [sf|] eqn:Hs.
  - rewrite (update_frame _ _ res root _ Hs). cbn.
    unfold propagated, calls_of_update.
    destruct (renderer this) as [slot [sh|] calls]; cbn;
      repeat split; try reflexivity.
    now rewrite <- app_assoc.
  - rewrite (update_null_source _ _ res root _ Hs). cbn.
    repeat split; try reflexivity. now rewrite app_nil_r.
Qed.

(** [update] makes the store refer to the live matrix, and never makes it
    refer to anything else. *)
Lemma update_keeps_reference (dst' src' : option Rect) (res : num) (root : bool)
    (this : System) :
  globalUniforms_projectionMatrix (renderer this) = ThisProjectionMatrix ->
  globalUniforms_projectionMatrix
    (renderer (state_of (update dst' src' res root this))) = ThisProjectionMatrix.
Proof.
  intros Href. destruct (resolved_source dst' src' this) as [sf|] eqn:Hs.
  - rewrite (update_frame _ _ res root _ Hs). cbn. unfold propagated.
    destruct (shader_shader (renderer this)); reflexivity.
  - now rewrite (update_null_source _ _ res root _ Hs).
Qed.

Lemma updates_keep_reference (calls : list (UpdateCall num)) :
  forall this : System,
    globalUniforms_projectionMatrix (renderer this) = ThisProjectionMatrix ->
    globalUniforms_projectionMatrix (renderer (updates calls this))
    = ThisProjectionMatrix.
Proof.
  induction calls as [|call rest IH]; intros this Href; cbn [updates].
  - exact Href.
  - apply IH. now apply update_keeps_reference.
Qed.

End Runs.

(** X2: once one [update] has run to its end, a source frame is stored for
    good: after any run of further [update] calls, whatever their arguments
    (null frames included), the next [update] runs to its end too. *)
Theorem update_never_throws_again :
  forall (num : Type) (N : Number num) (this : ProjectionSystem num)
         (dst0 src0 : option (Rectangle.t num)) (res0 : num) (root0 : bool),
    returned (update dst0 src0 res0 root0 this) = true ->
    forall (calls : list (UpdateCall num)) (dst' src' : option (Rectangle.t num))
           (res : num) (root : bool),
      let later := updates calls (state_of (update dst0 src0 res0 root0 this)) in
      (exists sf, sourceFrame later = Some sf)
      /\ returned (update dst' src' res root later) = true.
Proof.
  intros num N this dst0 src0 res0 root0 Hret calls dst' src' res root later.
  destruct (update_stores_source _ _ _ _ _ Hret) as [sf0 Hst0].
  destruct (updates_store_source calls _ Hst0) as [sf Hst].
  fold later in Hst. split; [now exists sf|].
  apply update_returned. exact (resolved_source_stored dst' src' later Hst).
Qed.

(** A first call with a destination frame only, then two calls with nothing,
    then a call of [update(null, null, 2, true)]. *)
Lemma update_never_throws_again_witness :
  let nothing := {| call_destinationFrame := None; call_sourceFrame := None;
                    call_resolution := 1%float; call_root := false |} in
  let later := updates [nothing; nothing]
                 (state_of (update (Some Sample.frame) None 1%float false Sample.fresh)) in
  (exists sf, sourceFrame later = Some sf)
  /\ returned (update None None 2%float true later) = true.
Proof.
  intros nothing later.
  exact (update_never_throws_again float_Number Sample.fresh (Some Sample.frame) None
           1%float false eq_refl [nothing; nothing] None None 2%float true).
Defined.

(** X3: no run of [update] calls, whether they return or throw, ever changes
    [defaultFrame], [transform] or the shader that is bound, and none removes
    or reorders a recorded host call: the record only grows at its end. *)
Theorem updates_leave_alone :
  forall (num : Type) (N : Number num) (calls : list (UpdateCall num))
         (this : ProjectionSystem num),
    defaultFrame (updates calls this) = defaultFrame this
    /\ transform (updates calls this) = transform this
    /\ shader_shader (renderer (updates calls this)) = shader_shader (renderer this)
    /\ exists more : list HostCall,
         hostCalls (renderer (updates calls this)) = hostCalls (renderer this) ++ more.
Proof.
  intros num N calls. induction calls as [|call rest IH]; intros this; cbn [updates].
  - repeat split; try reflexivity. exists []. now rewrite app_nil_r.
  - destruct (IH (state_of (update (call_destinationFrame call) (call_sourceFrame call)
                              (call_resolution call) (call_root call) this)))
      as (Hdef & Ht & Hsh & more & Hcalls).
    destruct (update_renderer (call_destinationFrame call) (call_sourceFrame call)
                (call_resolution call) (call_root call) this) as (Hdef1 & Hsh1 & Hcalls1).
    cbn zeta in Hdef1, Hsh1, Hcalls1.
    rewrite Hdef, Ht, Hsh, Hcalls, Hdef1, Hsh1, Hcalls1, update_transform.
    repeat split; try reflexivity.
    eexists. now rewrite <- app_assoc.
Qed.

(** X4: from a state that has a source frame stored, a run of [n] calls of
    [update] adds to the record of host calls exactly [n] times the calls of
    one update: one [globalUniforms.update()] per call, each followed by one
    [syncUniformGroup] of the bound shader's globals group when a shader is
    bound, and nothing else. *)
Theorem updates_host_calls :
  forall (num : Type) (N : Number num) (calls : list (UpdateCall num))
         (this : ProjectionSystem num) (sf0 : Rectangle.t num),
    sourceFrame this = Some sf0 ->
    hostCalls (renderer (updates calls this))
    = hostCalls (renderer this)
      ++ concat (map (fun _ => calls_of_update (renderer this)) calls).
Proof.
  intros num N calls. induction calls as [|call rest IH]; intros this sf0 Hst;
    cbn [updates map concat].
  - now rewrite app_nil_r.
  - destruct (resolved_source_stored (call_destinationFrame call)
                (call_sourceFrame call) this Hst) as [sf Hs].
    destruct (update_renderer (call_destinationFrame call) (call_sourceFrame call)
                (call_resolution call) (call_root call) this) as (_ & Hsh1 & Hcalls1).
    cbn zeta in Hsh1, Hcalls1.
    assert (Hret : returned (update (call_destinationFrame call) (call_sourceFrame call)
                               (call_resolution call) (call_root call) this) = true)
      by (apply update_returned; eauto).
    rewrite Hret in Hcalls1.
    assert (Hst1 : sourceFrame (state_of (update (call_destinationFrame call)
                     (call_sourceFrame call) (call_resolution call) (call_root call) this))
                   = Some sf)
      by now rewrite (update_frame _ _ _ _ _ Hs).
    assert (Hc : calls_of_update
                   (renderer (state_of (update (call_destinationFrame call)
                      (call_sourceFrame call) (call_resolution call) (call_root call) this)))
                 = calls_of_update (renderer this))
      by (unfold calls_of_update; now rewrite Hsh1).
    rewrite (IH _ sf Hst1), Hcalls1, Hc.
    now rewrite <- app_assoc.
Qed.

(** Three calls with a shader bound: upload and synchronisation, three times. *)
Lemma updates_host_calls_witness :
  let nothing := {| call_destinationFrame := None; call_sourceFrame := None;
                    call_resolution := 1%float; call_root := false |} in
  let this := set_sourceFrame (Some Sample.frame) (constructor Sample.host_with_shader) in
  hostCalls (renderer (updates [nothing; nothing; nothing] this))
  = [GlobalUniforms_update; Shader_syncUniformGroup 7;
     GlobalUniforms_update; Shader_syncUniformGroup 7;
     GlobalUniforms_update; Shader_syncUniformGroup 7].
Proof.
  intros nothing this.
  exact (updates_host_calls float_Number [nothing; nothing; nothing] this
           (sf0 := Sample.frame) eq_refl).
Defined.

(** ** What the derivation depends on *)

(** X5: [calculateProjection] is idempotent, and deaf to its
    [_destinationFrame] and [_resolution] arguments: calling it again on the
    state it left, with the same source frame and [root] and any other
    destination frame and resolution, ends the same way in the same state.
    This holds on every state, stale [b] and [c] included, and when it throws. *)
Theorem calculateProjection_idempotent :
  forall (num : Type) (N : Number num) (this : ProjectionSystem num)
         (dst dst' src : option (Rectangle.t num)) (res res' : num) (root : bool),
    let once := calculateProjection dst src res root this in
    calculateProjection dst' src res' root (state_of once) = once.
Proof.
  intros num N this dst dst' [sf|] res res' root once; unfold once.
  - rewrite !calculateProjection_frame. cbn. rewrite projected_idem.
    now destruct this.
  - now rewrite !calculateProjection_null.
Qed.

(** X6: when the [sourceFrame] argument or the stored source frame is there,
    the [destinationFrame] argument has no part in the matrix: two calls of
    [update] that differ in it only both run to their end with the same
    source frame, the same [projectionMatrix] and the same renderer, and
    differ in nothing but the destination frame they store. *)
Theorem update_destination_irrelevant :
  forall (num : Type) (N : Number num) (this : ProjectionSystem num)
         (dst1 dst2 src' : option (Rectangle.t num)) (res : num) (root : bool)
         (sf : Rectangle.t num),
    src' ||| sourceFrame this = Some sf ->
    let out1 := update dst1 src' res root this in
    let out2 := update dst2 src' res root this in
    returned out1 = true
    /\ returned out2 = true
    /\ state_of out2
       = set_destinationFrame (resolved_destination dst2 this) (state_of out1)
    /\ projectionMatrix (state_of out1) = projectionMatrix (state_of out2)
    /\ sourceFrame (state_of out1) = sourceFrame (state_of out2)
    /\ renderer (state_of out1) = renderer (state_of out2)
    /\ uniform_value (state_of out1) = uniform_value (state_of out2).
Proof.
  intros num N this dst1 dst2 src' res root sf Hsrc out1 out2.
  assert (Hs : forall dst', resolved_source dst' src' this = Some sf).
  { intros dst'. unfold resolved_source. now rewrite Hsrc. }
  assert (H1 : out1 = update dst1 src' res root this) by reflexivity.
  assert (H2 : out2 = update dst2 src' res root this) by reflexivity.
  rewrite (update_frame _ _ res root _ (Hs dst1)) in H1.
  rewrite (update_frame _ _ res root _ (Hs dst2)) in H2.
  rewrite H1, H2. unfold uniform_value. cbn. repeat split; reflexivity.
Qed.

(** The stored source frame decides, whatever the destination frames are. *)
Lemma update_destination_irrelevant_witness :
  let this := set_sourceFrame (Some Sample.offset_frame) Sample.turned in
  let out1 := update None None 1%float true this in
  let out2 := update (Some Sample.frame) None 1%float true this in
  returned out1 = true
  /\ returned out2 = true
  /\ state_of out2 = set_destinationFrame (Some Sample.frame) (state_of out1)
  /\ projectionMatrix (state_of out1) = projectionMatrix (state_of out2)
  /\ sourceFrame (state_of out1) = sourceFrame (state_of out2)
  /\ renderer (state_of out1) = renderer (state_of out2)
  /\ uniform_value (state_of out1) = uniform_value (state_of out2).
Proof.
  intros this out1 out2.
  exact (update_destination_irrelevant float_Number this None (Some Sample.frame) None
           1%float true (sf := Sample.offset_frame) eq_refl).
Defined.

(** X7: on a system with no source frame stored, [update(dest, null, ..)]
    takes [dest] for the source frame as well: it runs to its end, stores
    [dest] in both fields, and does in every respect what
    [update(dest, dest, ..)] does. *)
Theorem update_source_from_destination :
  forall (num : Type) (N : Number num) (this : ProjectionSystem num)
         (dest : Rectangle.t num) (res : num) (root : bool),
    sourceFrame this = None ->
    let out := update (Some dest) None res root this in
    out = update (Some dest) (Some dest) res root this
    /\ returned out = true
    /\ destinationFrame (state_of out) = Some dest
    /\ sourceFrame (state_of out) = Some dest
    /\ projectionMatrix (state_of out)
       = projectionMatrix
           (state_of (update None (Some dest) res root this)).
Proof.
  intros num N this dest res root Hst out.
  assert (Hs : resolved_source (Some dest) None this = Some dest).
  { unfold resolved_source. now rewrite Hst. }
  assert (Hs' : resolved_source (Some dest) (Some dest) this = Some dest) by reflexivity.
  assert (Hs'' : resolved_source None (Some dest) this = Some dest) by reflexivity.
  assert (Hout : out = update (Some dest) None res root this) by reflexivity.
  rewrite (update_frame _ _ res root _ Hs) in Hout.
  rewrite (update_frame _ _ res root _ Hs'), (update_frame _ _ res root _ Hs'').
  rewrite Hout. cbn. repeat split; reflexivity.
Qed.

(** A system just constructed. *)
Lemma update_source_from_destination_witness :
  let out := update (Some Sample.offset_frame) None 1%float false Sample.fresh in
  out = update (Some Sample.offset_frame) (Some Sample.offset_frame) 1%float false
          Sample.fresh
  /\ returned out = true
  /\ destinationFrame (state_of out) = Some Sample.offset_frame
  /\ sourceFrame (state_of out) = Some Sample.offset_frame
  /\ projectionMatrix (state_of out)
     = projectionMatrix
         (state_of (update None (Some Sample.offset_frame) 1%float false Sample.fresh)).
Proof.
  exact (update_source_from_destination float_Number Sample.fresh Sample.offset_frame
           1%float false eq_refl).
Defined.

(** ** The matrix is shared, not copied *)

(** X8: line 90 stores a reference.  Once one [update] has run to its end,
    the global uniform store reads the live [projectionMatrix]: after any run
    of further [update] calls the two are the same matrix, and a direct call
    of [calculateProjection], which does not touch the renderer, changes what
    the store reads along with [projectionMatrix]. *)
Theorem uniform_store_shares_matrix :
  forall (num : Type) (N : Number num) (this : ProjectionSystem num)
         (dst0 src0 : option (Rectangle.t num)) (res0 : num) (root0 : bool),
    returned (update dst0 src0 res0 root0 this) = true ->
    forall (calls : list (UpdateCall num)) (dst src : option (Rectangle.t num))
           (res : num) (root : bool),
      let later := updates calls (state_of (update dst0 src0 res0 root0 this)) in
      let direct := state_of (calculateProjection dst src res root later) in
      uniform_value later = projectionMatrix later
      /\ renderer direct = renderer later
      /\ uniform_value direct = projectionMatrix direct.
Proof.
  intros num N this dst0 src0 res0 root0 Hret calls dst src res root later direct.
  assert (Href0 : globalUniforms_projectionMatrix
                    (renderer (state_of (update dst0 src0 res0 root0 this)))
                  = ThisProjectionMatrix).
  { apply update_returned in Hret. destruct Hret as [sf Hs].
    rewrite (update_frame _ _ res0 root0 _ Hs). cbn. unfold propagated.
    destruct (shader_shader (renderer this)); reflexivity. }
  pose proof (updates_keep_reference calls _ Href0) as Href. fold later in Href.
  assert (Hr : renderer direct = renderer later).
  { unfold direct. destruct src as [sf|].
    - now rewrite calculateProjection_frame.
    - now rewrite calculateProjection_null. }
  unfold uniform_value. rewrite Hr, Href. repeat split; reflexivity.
Qed.

(** After an update for the 800 by 600 frame, a direct
    [calculateProjection] for a 2 by 2 frame: the store reads [a = 1]. *)
Lemma uniform_store_shares_matrix_witness :
  let later := state_of (update (Some Sample.frame) None 1%float false Sample.fresh) in
  let square := Rectangle.mk 0%float 0%float 2%float 2%float in
  let direct := state_of (calculateProjection None (Some square) 1%float false later) in
  (uniform_value later = projectionMatrix later
   /\ renderer direct = renderer later
   /\ uniform_value direct = projectionMatrix direct)
  /\ Matrix.a (uniform_value later) = 0.0025%float
  /\ Matrix.a (uniform_value direct) = 1%float.
Proof.
  intros later square direct. split.
  - exact (uniform_store_shares_matrix float_Number Sample.fresh (Some Sample.frame) None
             1%float false eq_refl [] None (Some square) 1%float false).
  - vm_compute. split; reflexivity.
Defined.

(** ** The geometry of the derived matrix, in exact arithmetic *)

Section ExactGeometry.
Context {num : Type} {N : Number num} {F : ExactField num}.

Local Existing Instance exact_arith.

Add Ring exact_field_ring : (@exact_ring num N exact_arith).

(** The horizontal scale times the width is 2. *)
Lemma scale_times_extent (v : num) :
  v <> num0 -> ((num1 / v * num2) * v = num1 + num1)%js.
Proof.
  intros Hv. rewrite one_div_mul_two, exact_div_mul, exact_div_cancel by exact Hv.
  apply exact_two.
Qed.

Lemma projected_corners (sf : Rectangle.t num) (root : bool) (pm : Matrix.t num) :
  Rectangle.width sf <> num0 ->
  Rectangle.height sf <> num0 ->
  let sign := if root then (- num1)%js else num1 in
  let pm' := projected sf root pm in
  (Matrix.a pm' * Rectangle.x sf + Matrix.tx pm' = - num1)%js
  /\ (Matrix.a pm' * (Rectangle.x sf + Rectangle.width sf) + Matrix.tx pm' = num1)%js
  /\ (Matrix.d pm' * Rectangle.y sf + Matrix.ty pm' = - sign)%js
  /\ (Matrix.d pm' * (Rectangle.y sf + Rectangle.height sf) + Matrix.ty pm' = sign)%js.
Proof.
  intros Hw Hh sign pm'. unfold pm'. rewrite projected_fields. cbn. fold sign.
  pose proof (scale_times_extent Hw) as Ew.
  pose proof (scale_times_extent Hh) as Eh.
  set (sa := (num1 / Rectangle.width sf * num2)%js) in *.
  set (sd := (num1 / Rectangle.height sf * num2)%js) in *.
  repeat split.
  - ring.
  - transitivity (sa * Rectangle.width sf - num1)%js; [ring|].
    rewrite Ew. ring.
  - ring.
  - transitivity (sign * (sd * Rectangle.height sf) - sign)%js; [ring|].
    rewrite Eh. ring.
Qed.

(** Without rotation or shear the two coordinates are mapped apart. *)
Lemma apply_axis_aligned (m : Matrix.t num) (px py : num) :
  axis_aligned m ->
  Matrix.apply m (px, py)
  = ((Matrix.a m * px + Matrix.tx m)%js, (Matrix.d m * py + Matrix.ty m)%js).
Proof.
  intros [Hb Hc]. unfold Matrix.apply. rewrite Hb, Hc. f_equal; ring.
Qed.

End ExactGeometry.

(** X10: in exact arithmetic, for a source frame whose width and height are
    not 0, the coefficients [calculateProjection] leaves send the frame's
    left edge [x] to -1 and its right edge [x + width] to +1, and its edge
    [y] to [-sign] and [y + height] to [sign], where [sign] is -1 for [root]
    and +1 otherwise; so on a matrix whose [b] and [c] are 0 the frame's
    corner [(x, y)] is mapped to [(-1, -sign)] and the opposite corner to
    [(1, sign)]: the frame fills clip space, upside down for [root]. *)
Theorem calculateProjection_maps_frame_to_clip_space :
  forall (num : Type) (N : Number num) (F : ExactField num)
         (this : ProjectionSystem num) (dst : option (Rectangle.t num))
         (sf : Rectangle.t num) (res : num) (root : bool),
    Rectangle.width sf <> num0 ->
    Rectangle.height sf <> num0 ->
    let sign := if root then (- num1)%js else num1 in
    let pm' := projectionMatrix (state_of (calculateProjection dst (Some sf) res root this)) in
    let x0 := Rectangle.x sf in
    let y0 := Rectangle.y sf in
    let x1 := (Rectangle.x sf + Rectangle.width sf)%js in
    let y1 := (Rectangle.y sf + Rectangle.height sf)%js in
    (Matrix.a pm' * x0 + Matrix.tx pm' = - num1)%js
    /\ (Matrix.a pm' * x1 + Matrix.tx pm' = num1)%js
    /\ (Matrix.d pm' * y0 + Matrix.ty pm' = - sign)%js
    /\ (Matrix.d pm' * y1 + Matrix.ty pm' = sign)%js
    /\ (axis_aligned (projectionMatrix this) ->
        Matrix.apply pm' (x0, y0) = ((- num1)%js, (- sign)%js)
        /\ Matrix.apply pm' (x1, y1) = (num1, sign)).
Proof.
  intros num N F this dst sf res root Hw Hh sign pm' x0 y0 x1 y1.
  subst x0 y0 x1 y1.
  assert (Hpm' : pm' = projected sf root (projectionMatrix this)).
  { unfold pm'. now rewrite calculateProjection_frame. }
  destruct (projected_corners sf root (projectionMatrix this) Hw Hh)
    as (Hx0 & Hx1 & Hy0 & Hy1).
  cbn zeta in Hx0, Hx1, Hy0, Hy1. rewrite <- Hpm' in Hx0, Hx1, Hy0, Hy1.
  fold sign in Hy0, Hy1.
  split; [exact Hx0|]. split; [exact Hx1|]. split; [exact Hy0|]. split; [exact Hy1|].
  intros [Hb Hc].
  assert (Hal : axis_aligned pm').
  { rewrite Hpm', projected_fields. split; assumption. }
  rewrite !(apply_axis_aligned _ _ Hal).
  now rewrite Hx0, Hx1, Hy0, Hy1.
Qed.

(** The frame [{100, 50, 800, 600}] for a root target, on a system just
    constructed: its corners go to [(-1, 1)] and [(1, -1)]. *)
Lemma calculateProjection_maps_frame_to_clip_space_witness :
  let frame := Rectangle.mk (Q2Qc 100) (Q2Qc 50) (Q2Qc 800) (Q2Qc 600) in
  let this := constructor {| globalUniforms_projectionMatrix := ThisProjectionMatrix;
                             shader_shader := None; hostCalls := [] |} in
  let pm' := projectionMatrix (state_of (calculateProjection None (Some frame) (Q2Qc 1) true this)) in
  Matrix.apply pm' (Q2Qc 100, Q2Qc 50) = ((- num1)%js, (- - num1)%js)
  /\ Matrix.apply pm' ((Q2Qc 100 + Q2Qc 800)%js, (Q2Qc 50 + Q2Qc 600)%js)
     = (num1, (- num1)%js).
Proof.
  intros frame this pm'.
  assert (Hw : Rectangle.width frame <> num0).
  { intros H. apply (f_equal Qcanon.this) in H. vm_compute in H. discriminate H. }
  assert (Hh : Rectangle.height frame <> num0).
  { intros H. apply (f_equal Qcanon.this) in H. vm_compute in H. discriminate H. }
  pose proof (calculateProjection_maps_frame_to_clip_space Qc_ExactField this None
                frame (Q2Qc 1) true Hw Hh) as H.
  cbv zeta in H. destruct H as (_ & _ & _ & _ & Hmap).
  exact (Hmap (conj eq_refl eq_refl)).
Defined.

(** ** Exact arithmetic: orientation and alignment *)

Section ExactAlignment.
Context {num : Type} {N : Number num} {E : ExactArith num}.

Add Ring exact_alignment_ring : exact_ring.

Lemma projected_flip (sf : Rectangle.t num) (pm pm' : Matrix.t num) :
  let flipped := projected sf true pm in
  let upright := projected sf false pm' in
  Matrix.a flipped = Matrix.a upright
  /\ Matrix.tx flipped = Matrix.tx upright
  /\ Matrix.d flipped = (- Matrix.d upright)%js
  /\ Matrix.ty flipped = (- Matrix.ty upright)%js.
Proof.
  cbn zeta. rewrite !projected_fields. cbn. repeat split; ring.
Qed.

End ExactAlignment.

(** X11: in exact arithmetic, for every source frame, whatever its [y],
    [root] changes the vertical part of the derived matrix and nothing else:
    [a] and [tx] are the same for [root = true] and [root = false], and [d]
    and [ty] for [root = true] are the negations of [d] and [ty] for
    [root = false]. *)
Theorem calculateProjection_root_flips_vertical :
  forall (num : Type) (N : Number num) (E : ExactArith num)
         (this this' : ProjectionSystem num) (dst dst' : option (Rectangle.t num))
         (sf : Rectangle.t num) (res res' : num),
    let flipped :=
      projectionMatrix (state_of (calculateProjection dst (Some sf) res true this)) in
    let upright :=
      projectionMatrix (state_of (calculateProjection dst' (Some sf) res' false this')) in
    Matrix.a flipped = Matrix.a upright
    /\ Matrix.tx flipped = Matrix.tx upright
    /\ Matrix.d flipped = (- Matrix.d upright)%js
    /\ Matrix.ty flipped = (- Matrix.ty upright)%js.
Proof.
  intros num N E this this' dst dst' sf res res' flipped upright.
  unfold flipped, upright. rewrite !calculateProjection_frame. cbn.
  apply projected_flip.
Qed.

(** The frame [{100, 50, 800, 600}], whose [y] is not 0. *)
Lemma calculateProjection_root_flips_vertical_witness :
  let frame := Rectangle.mk (Q2Qc 100) (Q2Qc 50) (Q2Qc 800) (Q2Qc 600) in
  let this := constructor {| globalUniforms_projectionMatrix := ThisProjectionMatrix;
                             shader_shader := None; hostCalls := [] |} in
  let flipped :=
    projectionMatrix (state_of (calculateProjection None (Some frame) (Q2Qc 1) true this)) in
  let upright :=
    projectionMatrix (state_of (calculateProjection None (Some frame) (Q2Qc 1) false this)) in
  Matrix.a flipped = Matrix.a upright
  /\ Matrix.tx flipped = Matrix.tx upright
  /\ Matrix.d flipped = (- Matrix.d upright)%js
  /\ Matrix.ty flipped = (- Matrix.ty upright)%js.
Proof.
  intros frame this flipped upright.
  exact (calculateProjection_root_flips_vertical Qc_ExactArith this this None None
           frame (Q2Qc 1) (Q2Qc 1)).
Defined.
